(** * ll-parsing: a streaming lexer and a stack-driven LL parse engine

    Shallow embedding of [src/index.ts] and the properties of its two
    exported factories, [createSimpleLexer] and [createLLParser].

    Modelling conventions
    - JavaScript numbers used as counters ([index], [line], [inlineIndex])
      are natural numbers; they only ever grow by one or are reset to 0.
    - A chunk is a [string]; [chunk[i]] is one character ([ascii]).
    - A [RegExp] that is only ever [test]ed against a one-character string
      is a predicate [ascii -> bool] (the expression is assumed to carry no
      [g]/[y] flag, so that [test] is stateless).
    - An async iterable is the finite list of the values it produces; a
      generator is the list of the values it yields, in order.
    - An array is a [list]; arrays that are mutated in place and may be
      shared between calls live in a heap ([gmap positive Stack]). *)

From Stdlib Require Import Ascii String.
From stdpp Require Import base option list strings gmap.

Local Open Scope string_scope.
Local Open Scope list_scope.
Local Open Scope nat_scope.

(** ** Characters and strings used by the source *)

Definition dquote : ascii := "034"%char.
Definition backslash : ascii := "092"%char.
Definition linefeed : ascii := "010"%char.

(** The one-character string [chunk[i]]. *)
Definition str (c : ascii) : string := String c EmptyString.

(** Comparison with the empty string. *)
Definition is_empty (s : string) : bool :=
  match s with EmptyString => true | String _ _ => false end.

(** ** Data model *)

Module LexedItem.
Record t := mk
  { tokens : list string; index : nat; line : nat; inlineIndex : nat }.
End LexedItem.

Module Position.
Record t := mk { index : nat; line : nat; inlineIndex : nat }.
End Position.

(** ** The lexer: [createSimpleLexer] *)

Module Lexer.

(** The destructured argument of [createSimpleLexer].  An omitted optional
    boolean is [undefined], which the conditions treat as [false]. *)
Record config := mkConfig
  { separatorRegex : ascii -> bool;
    newlineRegex : option (ascii -> bool);
    useQuote : bool;
    useEscape : bool;
    escapeChar : option string }.

(** [const defaultNewlineRegex = /^\r?\n$/], tested against one character:
    only a line feed has the shape: optional CR, then LF. *)
Definition defaultNewlineRegex (c : ascii) : bool := Ascii.eqb c linefeed.

(** [newlineRegex = newlineRegex || defaultNewlineRegex] *)
Definition newline (cfg : config) : ascii -> bool :=
  match newlineRegex cfg with
  | Some r => r
  | None => defaultNewlineRegex
  end.

(** [escapeChar || backslash]: an absent or empty [escapeChar] is falsy. *)
Definition escape (cfg : config) : string :=
  match escapeChar cfg with
  | Some s => if is_empty s then str backslash else s
  | None => str backslash
  end.

(** The generator's local variables. *)
Record state := mkState
  { token : string;
    isQuoting : bool;
    isEscaping : bool;
    index : nat;
    line : nat;
    inlineIndex : nat }.

Definition init : state :=
  {| token := EmptyString; isQuoting := false; isEscaping := false;
     index := 0; line := 0; inlineIndex := 0 |}.

(** One iteration of the inner [for] loop (lines 184-220): the updated
    locals and the items yielded during the iteration. *)
Definition lex_char (cfg : config) (st : state) (char : ascii)
  : state * list LexedItem.t :=
  let index := S (index st) in
  let inlineIndex := S (inlineIndex st) in
  let '(token, isQuoting, isEscaping, out) :=
    if useEscape cfg && isEscaping st then
      (token st +:+ str char, isQuoting st, false, [])
    else if useEscape cfg && String.eqb (str char) (escape cfg) then
      (token st, isQuoting st, true, [])
    else if useQuote cfg && isQuoting st then
      if Ascii.eqb char dquote then
        (token st +:+ str dquote, false, isEscaping st, [])
      else
        (token st +:+ str char, isQuoting st, isEscaping st, [])
    else if separatorRegex cfg char then
      let '(token, pending) :=
        if negb (is_empty (token st)) then
          (EmptyString,
           [LexedItem.mk [token st] (index - 1) (line st) (inlineIndex - 1)])
        else (token st, []) in
      (token, isQuoting st, isEscaping st,
       pending ++ [LexedItem.mk [str char] index (line st) inlineIndex])
    else
      (token st +:+ str char, isQuoting st, isEscaping st, []) in
  let '(line, inlineIndex) :=
    if newline cfg char then (S (line st), 0) else (line st, inlineIndex) in
  (mkState token isQuoting isEscaping index line inlineIndex, out).

(** The inner loop over the characters of one chunk. *)
Fixpoint lex_chars (cfg : config) (st : state) (chunk : string)
  : state * list LexedItem.t :=
  match chunk with
  | EmptyString => (st, [])
  | String char rest =>
      let '(st1, out1) := lex_char cfg st char in
      let '(st2, out2) := lex_chars cfg st1 rest in
      (st2, out1 ++ out2)
  end.

(** Lines 223-225: the [yield] after the inner loop.  No local variable is
    assigned there. *)
Definition chunk_end (st : state) : list LexedItem.t :=
  if negb (is_empty (token st)) then
    [LexedItem.mk [token st] (index st) (line st) (inlineIndex st)]
  else [].

(** One iteration of the outer [for await] loop. *)
Definition lex_chunk (cfg : config) (st : state) (chunk : string)
  : state * list LexedItem.t :=
  let '(st', out) := lex_chars cfg st chunk in
  (st', out ++ chunk_end st').

Fixpoint lex_chunks (cfg : config) (st : state) (stream : list string)
  : state * list LexedItem.t :=
  match stream with
  | [] => (st, [])
  | chunk :: rest =>
      let '(st1, out1) := lex_chunk cfg st chunk in
      let '(st2, out2) := lex_chunks cfg st1 rest in
      (st2, out1 ++ out2)
  end.

(** [createSimpleLexer(cfg)(stream)]: everything the generator yields. *)
Definition createSimpleLexer (cfg : config) (stream : list string)
  : list LexedItem.t :=
  (lex_chunks cfg init stream).2.

(** The text of every yielded item, in order. *)
Definition texts (items : list LexedItem.t) : list string :=
  mjoin (LexedItem.tokens <$> items).

(** The characters of a stream, chunk boundaries forgotten. *)
Definition characters (stream : list string) : string :=
  foldr String.append EmptyString stream.

(** *** Where an item was yielded

    The generator has three [yield]s: two inside the inner loop (lines 203
    and 212) and one after it (line 224).  [trace] is [lex_chunks] with
    every item labelled by the place that yielded it. *)
Inductive origin := In_loop | At_chunk_end.

Fixpoint trace (cfg : config) (st : state) (stream : list string)
  : state * list (origin * LexedItem.t) :=
  match stream with
  | [] => (st, [])
  | chunk :: rest =>
      let '(st1, out) := lex_chars cfg st chunk in
      let '(st2, more) := trace cfg st1 rest in
      (st2,
       (pair In_loop <$> out) ++ (pair At_chunk_end <$> chunk_end st1) ++ more)
  end.

Definition is_in_loop (o : origin) : bool :=
  match o with In_loop => true | At_chunk_end => false end.

(** The items of a trace that the inner loop yielded. *)
Fixpoint in_loop (tr : list (origin * LexedItem.t)) : list LexedItem.t :=
  match tr with
  | [] => []
  | (o, x) :: tr => if is_in_loop o then x :: in_loop tr else in_loop tr
  end.

(** The number of characters of [s] that match the newline pattern. *)
Fixpoint newlines (cfg : config) (s : string) : nat :=
  match s with
  | EmptyString => 0
  | String c s => (if newline cfg c then 1 else 0) + newlines cfg s
  end.

End Lexer.

(** ** The parse engine: [createLLParser] *)

Module ParseError.
(** [token] is [tokens[0]], which is [undefined] for an item without
    tokens.  The [parseErrorSym] tag is the constructor [EParseError] of
    stack entries below. *)
Record t := mk
  { message : string;
    token : option string;
    index : nat;
    line : nat;
    inlineIndex : nat }.
End ParseError.

(** A JavaScript symbol: an identity and the description shown by
    [toString]. *)
Record symbol := Symbol { sym_id : nat; description : string }.

Definition symbol_toString (s : symbol) : string :=
  "Symbol(" +:+ description s +:+ ")".

(** [type Stack = (symbol | string | ParseError)[]] *)
Inductive entry :=
| ESymbol (s : symbol)
| EString (s : string)
| EParseError (e : ParseError.t).

Abbreviation Stack := (list entry).

Inductive onError_t := stop | throw | continue.

Record ParseOptions := mkOptions { onError : onError_t; debug : bool }.

(** The default value of the [options] parameter. *)
Definition default_options : ParseOptions :=
  {| onError := stop; debug := false |}.

(** What a template literal prints for [tokens[0]]. *)
Definition interpolate (x : option string) : string :=
  match x with Some s => s | None => "undefined" end.

(** [tos !== tokens[0]] for a string [tos]. *)
Definition differs (tos : string) (x : option string) : bool :=
  match x with Some s => negb (String.eqb tos s) | None => true end.

(** The position object built for the rules (lines 65-69). *)
Definition position_of (item : LexedItem.t) : Position.t :=
  Position.mk (LexedItem.index item) (LexedItem.line item)
    (LexedItem.inlineIndex item).

(** The message of the failure for a symbol without a rule (line 61). *)
Definition no_rule (tos : symbol) : string :=
  "No rule for " +:+ symbol_toString tos +:+ ".".

Module ParseResult.
Record t (TResult : Type) := mk
  { stack : Stack;
    errors : list ParseError.t;
    result : TResult;
    index : nat }.
Arguments mk {TResult}.
Arguments stack {TResult}.
Arguments errors {TResult}.
Arguments result {TResult}.
Arguments index {TResult}.
End ParseResult.

(** How a call of [parse] ends.  [Throws] carries the message of the
    [Error], the list printed by [console.error(errors)] in the [catch]
    block, and the contents of the two mutable objects at that moment.
    [Diverges] stands for a [while] loop that has not settled within the
    given number of rule applications. *)
Inductive outcome (TResult : Type) :=
| Returns (r : ParseResult.t TResult)
| Throws (message : string) (logged : list ParseError.t)
         (stack : Stack) (result : TResult)
| Diverges.
Arguments Returns {TResult}.
Arguments Throws {TResult}.
Arguments Diverges {TResult}.

Section Engine.

Context {TResult : Type}.

(** A rule receives the tokens, the position and the shared result object;
    it returns the fragment to splice in, and the result object as it has
    left it.  Rules are assumed to return. *)
Definition rule : Type :=
  list string → Position.t → TResult → Stack * TResult.

(** [rules[tos]] *)
Definition rule_table : Type := symbol → option rule.

Variable rules : rule_table.
Variable options : ParseOptions.

(** The [while] loop of lines 48-73 for one lexed item.  [fuel] bounds
    the number of rule applications.  The debug output of lines 49-59 has
    no effect on the data and is left out. *)
Inductive expansion :=
| Settled (tos : option entry) (stack : Stack) (result : TResult)
| NoRule (tos : symbol) (stack : Stack) (result : TResult)
| Unsettled.

Fixpoint expand (fuel : nat) (tokens : list string) (position : Position.t)
    (stack : Stack) (result : TResult) : expansion :=
  match stack with
  | [] => Settled None [] result
  | ESymbol tos :: stack =>
      match rules tos with
      | None => NoRule tos stack result
      | Some rule =>
          match fuel with
          | 0 => Unsettled
          | S fuel =>
              let '(fragment, result) := rule tokens position result in
              expand fuel tokens position (fragment ++ stack) result
          end
      end
  | tos :: stack => Settled (Some tos) stack result
  end.

(** Lines 77-83. *)
Definition mismatch (tos : string) (item : LexedItem.t) : ParseError.t :=
  let tokens0 := head (LexedItem.tokens item) in
  {| ParseError.message :=
       "Expected '" +:+ tos +:+ "' but got '" +:+ interpolate tokens0 +:+ "'.";
     ParseError.index := LexedItem.index item;
     ParseError.line := LexedItem.line item;
     ParseError.inlineIndex := LexedItem.inlineIndex item;
     ParseError.token := tokens0 |}.

(** The body of the [for await] loop for one item: either the loop goes
    on with the updated locals, or the call ends. *)
Inductive iteration :=
| Goes_on (stack : Stack) (errors : list ParseError.t) (lastIndex : nat)
          (result : TResult)
| Ends (o : outcome TResult).

(** Lines 84-94 and 98-108: what is done with a recoverable error. *)
Definition on_error (error : ParseError.t) (item : LexedItem.t)
    (stack : Stack) (errors : list ParseError.t) (result : TResult)
  : iteration :=
  match onError options with
  | stop =>
      Ends (Returns (ParseResult.mk stack (errors ++ [error]) result
                       (LexedItem.index item)))
  | throw => Ends (Throws (ParseError.message error) errors stack result)
  | continue => Goes_on stack errors (LexedItem.index item) result
  end.

Definition parse_item (fuel : nat) (item : LexedItem.t)
    (stack : Stack) (errors : list ParseError.t) (result : TResult)
  : iteration :=
  let tokens := LexedItem.tokens item in
  let index := LexedItem.index item in
  match expand fuel tokens (position_of item) stack result with
  | Unsettled => Ends Diverges
  | NoRule tos stack result => Ends (Throws (no_rule tos) errors stack result)
  | Settled tos stack result =>
      match tos with
      | Some (EString tos) =>
          if differs tos (head tokens) then
            on_error (mismatch tos item) item stack errors result
          else Goes_on stack errors index result
      | Some (EParseError error) =>
          on_error error item stack errors result
      | _ => Goes_on stack errors index result
      end
  end.

(** The [for await] loop from given values of the locals, and the
    [return] after it. *)
Fixpoint parse_items (fuel : nat) (lexed : list LexedItem.t)
    (stack : Stack) (errors : list ParseError.t) (lastIndex : nat)
    (result : TResult) : outcome TResult :=
  match lexed with
  | [] => Returns (ParseResult.mk stack errors result lastIndex)
  | item :: lexed =>
      match parse_item fuel item stack errors result with
      | Goes_on stack errors lastIndex result =>
          parse_items fuel lexed stack errors lastIndex result
      | Ends o => o
      end
  end.

(** [parse] once [initStack()] has produced an array with contents
    [stack]: lines 43-122. *)
Definition parse_from (fuel : nat) (stack : Stack)
    (lexed : list LexedItem.t) (result : TResult) : outcome TResult :=
  parse_items fuel lexed stack [] 0 result.

(** *** The array returned by [initStack]

    [parse] shifts and unshifts the array that [initStack()] returns, in
    place.  Arrays live in a heap; [initStack] may allocate a new array
    or hand out one that exists already.  Rules have no access to the
    array. *)
Definition initStack_t : Type :=
  gmap positive Stack → positive * gmap positive Stack.

Definition parse (initStack : initStack_t) (fuel : nat)
    (lexed : list LexedItem.t) (result : TResult)
    (heap : gmap positive Stack)
  : outcome TResult * gmap positive Stack :=
  let '(stack, heap) := initStack heap in
  let o := parse_from fuel (default [] (heap !! stack)) lexed result in
  (o,
   match o with
   | Returns r => <[stack := ParseResult.stack r]> heap
   | Throws _ _ contents _ => <[stack := contents]> heap
   | Diverges => heap
   end).

End Engine.

(** An [initStack] that builds a new array on every call, as
    [() => [...contents]] does. *)
Definition fresh_array (contents : Stack) : initStack_t :=
  λ heap, let l := fresh (dom heap) in (l, <[l := contents]> heap).

(** An [initStack] that returns one and the same array on every call, as
    [() => shared] does. *)
Definition shared_array (l : positive) : initStack_t :=
  λ heap, (l, heap).

(** The item the base lexer would yield for a single token. *)
Definition item (text : string) (index : nat) : LexedItem.t :=
  LexedItem.mk [text] index 0 index.

(** [initStack] hands out an array with the given contents, whatever the
    heap it is called in. *)
Definition rebuilds (initStack : initStack_t) (contents : Stack) : Prop :=
  ∀ heap, (initStack heap).2 !! (initStack heap).1 = Some contents.

(** The index of the last item of [lexed], or [lastIndex] if there is none. *)
Definition last_index (lexed : list LexedItem.t) (lastIndex : nat) : nat :=
  default lastIndex (last (LexedItem.index <$> lexed)).

(** ** The configurations and the grammar of the examples *)

(** A separator pattern matching a comma or white space, like [/[,\s]/]. *)
Definition comma_or_space (c : ascii) : bool :=
  Ascii.eqb c ","%char || Ascii.eqb c " "%char || Ascii.eqb c linefeed.

Definition plain : Lexer.config :=
  Lexer.mkConfig comma_or_space None false false None.

Definition quoting : Lexer.config :=
  Lexer.mkConfig comma_or_space None true false None.

Definition escaping : Lexer.config :=
  Lexer.mkConfig comma_or_space None false true None.

(** The five characters of the quoted example: a quote, [ab], a quote, [c]. *)
Definition quoted_ab_c : string :=
  String dquote ("ab" +:+ String dquote "c").

(** The five characters quote, [a,b], quote. *)
Definition quoted_a_comma_b : string :=
  String dquote ("a,b" +:+ str dquote).

(** The four characters [a\,b]. *)
Definition a_escaped_comma_b : string :=
  "a" +:+ String backslash ",b".

(** The grammar with the single rule S -> a b. *)
Definition sym_S : symbol := Symbol 0 "S".

Definition ab_rules {TResult : Type} : @rule_table TResult :=
  λ tos,
    if Nat.eqb (sym_id tos) (sym_id sym_S) then
      Some (λ _ _ result, ([EString "a"; EString "b"], result))
    else None.

Definition on (policy : onError_t) : ParseOptions :=
  {| onError := policy; debug := false |}.

(** A symbol without a rule in [ab_rules]. *)
Definition sym_T : symbol := Symbol 1 "T".

(** A table whose only rule expands S to the symbol T, which has no rule,
    followed by the terminal b. *)
Definition dangling_rules {TResult : Type} : @rule_table TResult :=
  λ tos,
    if Nat.eqb (sym_id tos) (sym_id sym_S) then
      Some (λ _ _ result, ([ESymbol sym_T; EString "b"], result))
    else None.

(** A table whose only rule expands the symbol E to nothing. *)
Definition sym_E : symbol := Symbol 2 "E".

Definition vanishing_rules {TResult : Type} : @rule_table TResult :=
  λ tos,
    if Nat.eqb (sym_id tos) (sym_id sym_E) then
      Some (λ _ _ result, ([], result))
    else None.

(** ** Notions used to state further properties *)

(** [l] never decreases, starts at [lo] or above and ends at [hi] or
    below. *)
Fixpoint ascending (lo : nat) (l : list nat) (hi : nat) : Prop :=
  match l with
  | [] => lo ≤ hi
  | i :: l => lo ≤ i ∧ ascending i l hi
  end.

(** Every character of [s] satisfies [p]. *)
Fixpoint all_chars (p : ascii → bool) (s : string) : bool :=
  match s with
  | EmptyString => true
  | String c s => p c && all_chars p s
  end.

(** The characters that [lex_char] does not simply append when the escape
    is not armed: separators and, with [useEscape], the escape character. *)
Definition special (cfg : Lexer.config) (c : ascii) : bool :=
  Lexer.separatorRegex cfg c
  || (Lexer.useEscape cfg && String.eqb (str c) (Lexer.escape cfg)).

(** The value of [inlineIndex] after the characters of [s], starting from
    [col]: the number of characters since the last newline. *)
Fixpoint column (cfg : Lexer.config) (col : nat) (s : string) : nat :=
  match s with
  | EmptyString => col
  | String c s => column cfg (if Lexer.newline cfg c then 0 else S col) s
  end.

(** A configuration with other values for the two optional flags. *)
Definition with_useEscape (b : bool) (cfg : Lexer.config) : Lexer.config :=
  Lexer.mkConfig (Lexer.separatorRegex cfg) (Lexer.newlineRegex cfg)
    (Lexer.useQuote cfg) b (Lexer.escapeChar cfg).

Definition with_useQuote (b : bool) (cfg : Lexer.config) : Lexer.config :=
  Lexer.mkConfig (Lexer.separatorRegex cfg) (Lexer.newlineRegex cfg)
    b (Lexer.useEscape cfg) (Lexer.escapeChar cfg).

(** A configuration whose [escapeChar] has two characters. *)
Definition two_character_escape : Lexer.config :=
  Lexer.mkConfig comma_or_space None false true
    (Some (String backslash (str backslash))).

(** An item has exactly one token, and it is not empty. *)
Definition one_token (x : LexedItem.t) : Prop :=
  ∃ text, LexedItem.tokens x = [text] ∧ text ≠ EmptyString.

(** [tokens[0]] of the item is the string [text]. *)
Definition reads (x : LexedItem.t) (text : string) : Prop :=
  head (LexedItem.tokens x) = Some text.

(** No entry of the stack is a symbol. *)
Definition symbol_free (stack : Stack) : bool :=
  forallb (λ e, match e with ESymbol _ => false | _ => true end) stack.

(** The rule of [s] always puts [s] itself at the front of its fragment. *)
Definition left_recursive {TResult : Type} (rules : @rule_table TResult)
    (s : symbol) : Prop :=
  ∃ r, rules s = Some r ∧
       ∀ tokens position result,
         head (r tokens position result).1 = Some (ESymbol s).

(** A table whose only rule expands S to S followed by the terminal a. *)
Definition looping_rules {TResult : Type} : @rule_table TResult :=
  λ tos,
    if Nat.eqb (sym_id tos) (sym_id sym_S) then
      Some (λ _ _ result, ([ESymbol sym_S; EString "a"], result))
    else None.

(** A table over a counter: S expands to the terminal a and adds two. *)
Definition counting_rules : @rule_table nat :=
  λ tos,
    if Nat.eqb (sym_id tos) (sym_id sym_S) then
      Some (λ _ _ result, ([EString "a"], 2 + result))
    else None.

(** The error built for a terminal [tos] and an item without tokens. *)
Definition got_undefined (tos : string) (x : LexedItem.t) : ParseError.t :=
  ParseError.mk ("Expected '" +:+ tos +:+ "' but got 'undefined'.") None
    (LexedItem.index x) (LexedItem.line x) (LexedItem.inlineIndex x).

(** Case analysis on every condition of the goal. *)
Ltac lex_branches :=
  repeat match goal with
         | |- context [if ?b then _ else _] =>
             let E := fresh "E" in destruct b eqn:E
         end.

(** * Properties of the lexer *)

Section LexerFacts.

Import Lexer.

Variable cfg : config.

(** The inner loop is a left fold: running it over [a +:+ b] is running it
    over [a] and then over [b]. *)
Lemma lex_chars_app (a b : string) : ∀ st,
  lex_chars cfg st (a +:+ b) =
    let '(st1, out1) := lex_chars cfg st a in
    let '(st2, out2) := lex_chars cfg st1 b in
    (st2, out1 ++ out2).
Proof.
  induction a as [|char a IH]; intros st.
  - change (EmptyString +:+ b) with b. simpl.
    by destruct (lex_chars cfg st b).
  - change (String char a +:+ b) with (String char (a +:+ b)). simpl.
    destruct (lex_char cfg st char) as [st1 out1]. rewrite IH.
    destruct (lex_chars cfg st1 a) as [st2 out2].
    destruct (lex_chars cfg st2 b) as [st3 out3].
    by rewrite app_assoc.
Qed.

(** The end of a chunk leaves every local variable as the inner loop left
    it. *)
Lemma lex_chunk_state (st : state) (chunk : string) :
  (lex_chunk cfg st chunk).1 = (lex_chars cfg st chunk).1.
Proof. unfold lex_chunk. by destruct (lex_chars cfg st chunk). Qed.

Lemma in_loop_app (tr1 tr2 : list (origin * LexedItem.t)) :
  in_loop (tr1 ++ tr2) = in_loop tr1 ++ in_loop tr2.
Proof.
  induction tr1 as [|[[] x] tr1 IH]; simpl; [done| |done].
  by rewrite IH.
Qed.

Lemma in_loop_yielded_in_loop (items : list LexedItem.t) :
  in_loop (pair In_loop <$> items) = items.
Proof.
  induction items as [|x items IH]; [done|].
  rewrite fmap_cons. simpl. by rewrite IH.
Qed.

Lemma in_loop_yielded_at_chunk_end (items : list LexedItem.t) :
  in_loop (pair At_chunk_end <$> items) = [].
Proof. by induction items. Qed.

(** Forgetting the labels of a trace gives back what the generator yields. *)
Lemma trace_erase (stream : list string) : ∀ st,
  (trace cfg st stream).1 = (lex_chunks cfg st stream).1 ∧
  (trace cfg st stream).2.*2 = (lex_chunks cfg st stream).2.
Proof.
  induction stream as [|chunk rest IH]; intros st; simpl; [done|].
  unfold lex_chunk. destruct (lex_chars cfg st chunk) as [st1 out].
  destruct (IH st1) as [IH1 IH2].
  destruct (trace cfg st1 rest) as [st2 more].
  destruct (lex_chunks cfg st1 rest) as [st2' more']. simpl in *.
  split; [done|].
  rewrite !fmap_app, <-!list_fmap_compose, IH2, app_assoc. simpl.
  by rewrite !list_fmap_id.
Qed.

(** The items yielded inside the inner loop, and the locals at the end, are
    those of the inner loop run over all characters at once. *)
Lemma trace_in_loop (stream : list string) : ∀ st,
  (trace cfg st stream).1 = (lex_chars cfg st (characters stream)).1 ∧
  in_loop (trace cfg st stream).2 = (lex_chars cfg st (characters stream)).2.
Proof.
  induction stream as [|chunk rest IH]; intros st; simpl; [done|].
  rewrite lex_chars_app.
  destruct (lex_chars cfg st chunk) as [st1 out].
  destruct (IH st1) as [IH1 IH2].
  destruct (trace cfg st1 rest) as [st2 more].
  destruct (lex_chars cfg st1 (characters rest)) as [st2' more']. simpl in *.
  split; [done|].
  by rewrite !in_loop_app, in_loop_yielded_in_loop,
    in_loop_yielded_at_chunk_end, IH2.
Qed.

(** One character: the counters. *)
Lemma lex_char_counters (st : state) (char : ascii) :
  let st' := (lex_char cfg st char).1 in
  index st' = S (index st) ∧
  if newline cfg char
  then line st' = S (line st) ∧ inlineIndex st' = 0
  else line st' = line st ∧ inlineIndex st' = S (inlineIndex st).
Proof.
  unfold lex_char.
  repeat match goal with
         | |- context [if ?b then _ else _] => destruct b
         end; simpl; auto.
Qed.

Lemma lex_chars_line (s : string) : ∀ st,
  line (lex_chars cfg st s).1 = line st + newlines cfg s.
Proof.
  induction s as [|char s IH]; intros st; simpl; [lia|].
  pose proof (lex_char_counters st char) as [_ H].
  destruct (lex_char cfg st char) as [st1 out1]. specialize (IH st1).
  destruct (lex_chars cfg st1 s) as [st2 out2]. simpl in *.
  destruct (newline cfg char); lia.
Qed.

(** One character: the quoting flag is never raised. *)
Lemma lex_char_isQuoting (st : state) (char : ascii) :
  isQuoting st = false → isQuoting (lex_char cfg st char).1 = false.
Proof.
  intros H. unfold lex_char. rewrite H.
  repeat match goal with
         | |- context [if ?b then _ else _] => destruct b
         end; simpl; auto.
Qed.

Lemma lex_chars_isQuoting (s : string) : ∀ st,
  isQuoting st = false → isQuoting (lex_chars cfg st s).1 = false.
Proof.
  induction s as [|char s IH]; intros st H; simpl; [done|].
  pose proof (lex_char_isQuoting st char H) as H1.
  destruct (lex_char cfg st char) as [st1 out1]. specialize (IH st1 H1).
  by destruct (lex_chars cfg st1 s).
Qed.

End LexerFacts.

(** ** Chunk boundaries *)

(** C2.  Two ways of cutting the same characters into chunks give traces
    that differ only in the items yielded at the end of a chunk: forgetting
    the labels of either trace gives the generator's output for that
    stream, the items yielded by the inner loop are the same items (same
    texts, same positions) in the same order, and the generator's locals
    end up equal. *)
Theorem chunk_boundaries_only_add_chunk_end_items
    (cfg : Lexer.config) (stream1 stream2 : list string) :
  Lexer.characters stream1 = Lexer.characters stream2 →
  let '(st1, tr1) := Lexer.trace cfg Lexer.init stream1 in
  let '(st2, tr2) := Lexer.trace cfg Lexer.init stream2 in
  tr1.*2 = Lexer.createSimpleLexer cfg stream1 ∧
  tr2.*2 = Lexer.createSimpleLexer cfg stream2 ∧
  Lexer.in_loop tr1 = Lexer.in_loop tr2 ∧
  st1 = st2.
Proof.
  intros Hchars. unfold Lexer.createSimpleLexer.
  destruct (trace_erase cfg stream1 Lexer.init) as [_ E1].
  destruct (trace_erase cfg stream2 Lexer.init) as [_ E2].
  destruct (trace_in_loop cfg stream1 Lexer.init) as [S1 L1].
  destruct (trace_in_loop cfg stream2 Lexer.init) as [S2 L2].
  destruct (Lexer.trace cfg Lexer.init stream1) as [st1 tr1].
  destruct (Lexer.trace cfg Lexer.init stream2) as [st2 tr2].
  simpl in *. rewrite Hchars in S1, L1. repeat split; congruence.
Qed.

Lemma chunk_boundaries_only_add_chunk_end_items_witness :
  let '(st1, tr1) := Lexer.trace plain Lexer.init ["ab"; "c,d"] in
  let '(st2, tr2) := Lexer.trace plain Lexer.init ["abc,d"] in
  tr1.*2 = Lexer.createSimpleLexer plain ["ab"; "c,d"] ∧
  tr2.*2 = Lexer.createSimpleLexer plain ["abc,d"] ∧
  Lexer.in_loop tr1 = Lexer.in_loop tr2 ∧
  st1 = st2.
Proof.
  apply (chunk_boundaries_only_add_chunk_end_items plain
           ["ab"; "c,d"] ["abc,d"]).
  reflexivity.
Defined.

(** C10.  The end of a chunk assigns no local variable, so the token that
    was just yielded stays in the buffer; for the two chunks [ab] and [cd]
    the text [ab] yielded at the end of the first chunk comes back as the
    beginning of the next item, and the texts put together are not the
    characters of the stream. *)
Theorem chunk_end_keeps_the_token :
  (∀ cfg st chunk,
     (Lexer.lex_chunk cfg st chunk).1 = (Lexer.lex_chars cfg st chunk).1) ∧
  ∃ (stream : list string) (flushed later : string),
    2 ≤ length stream ∧
    later ≠ EmptyString ∧
    Lexer.createSimpleLexer plain stream =
      [LexedItem.mk [flushed] 2 0 2;
       LexedItem.mk [flushed +:+ later] 4 0 4] ∧
    String.concat EmptyString
      (Lexer.texts (Lexer.createSimpleLexer plain stream))
    ≠ Lexer.characters stream.
Proof.
  split; [apply lex_chunk_state|].
  exists ["ab"; "cd"], "ab", "cd". repeat split; [simpl; lia|done|].
  vm_compute. discriminate.
Qed.

(** ** Newlines *)

(** C6.  Every iteration of the inner loop advances [index]; if the
    character matches the newline pattern it adds one to [line] and sets
    [inlineIndex] to 0, and otherwise it leaves [line] alone and advances
    [inlineIndex], whatever the flags, the buffer and the character are.
    Over a whole stream [line] grows by the number of newline characters. *)
Theorem newline_bumps_line_and_resets_column (cfg : Lexer.config) :
  (∀ st char,
     let st' := (Lexer.lex_char cfg st char).1 in
     Lexer.index st' = S (Lexer.index st) ∧
     if Lexer.newline cfg char
     then Lexer.line st' = S (Lexer.line st) ∧ Lexer.inlineIndex st' = 0
     else Lexer.line st' = Lexer.line st ∧
          Lexer.inlineIndex st' = S (Lexer.inlineIndex st)) ∧
  (∀ st stream,
     Lexer.line (Lexer.lex_chunks cfg st stream).1 =
     Lexer.line st + Lexer.newlines cfg (Lexer.characters stream)).
Proof.
  split; [apply lex_char_counters|].
  intros st stream.
  destruct (trace_erase cfg stream st) as [<- _].
  destruct (trace_in_loop cfg stream st) as [-> _].
  apply lex_chars_line.
Qed.

(** ** Escaping *)

(** C7.  With [useEscape], a character read while the escape is armed is
    appended to the token and nothing is yielded, whether or not it matches
    the separator pattern or is a quote; the escape character followed by
    any character therefore appends that character.  The four characters
    [a\,b] give the single item [a,b]. *)
Theorem escaped_character_is_appended_verbatim :
  (∀ cfg st char,
     Lexer.useEscape cfg = true → Lexer.isEscaping st = true →
     let '(st', out) := Lexer.lex_char cfg st char in
     out = [] ∧
     Lexer.token st' = Lexer.token st +:+ str char ∧
     Lexer.isEscaping st' = false ∧
     Lexer.isQuoting st' = Lexer.isQuoting st) ∧
  (∀ cfg st e char,
     Lexer.useEscape cfg = true → Lexer.isEscaping st = false →
     Lexer.escape cfg = str e →
     let '(st', out) := Lexer.lex_chars cfg st (String e (str char)) in
     out = [] ∧
     Lexer.token st' = Lexer.token st +:+ str char ∧
     Lexer.isEscaping st' = false ∧
     Lexer.isQuoting st' = Lexer.isQuoting st) ∧
  Lexer.createSimpleLexer escaping [a_escaped_comma_b] =
    [LexedItem.mk ["a,b"] 4 0 4].
Proof.
  assert (armed : ∀ cfg st char,
     Lexer.useEscape cfg = true → Lexer.isEscaping st = true →
     let '(st', out) := Lexer.lex_char cfg st char in
     out = [] ∧
     Lexer.token st' = Lexer.token st +:+ str char ∧
     Lexer.isEscaping st' = false ∧
     Lexer.isQuoting st' = Lexer.isQuoting st).
  { intros cfg st char Huse Harmed. unfold Lexer.lex_char.
    rewrite Huse, Harmed. simpl. by destruct (Lexer.newline cfg char). }
  split; [exact armed|]. split; [|reflexivity].
  intros cfg st e char Huse Hidle Hesc. simpl.
  assert (arm : ∃ st1, Lexer.lex_char cfg st e = (st1, []) ∧
                       Lexer.token st1 = Lexer.token st ∧
                       Lexer.isEscaping st1 = true ∧
                       Lexer.isQuoting st1 = Lexer.isQuoting st).
  { unfold Lexer.lex_char. rewrite Huse, Hidle, Hesc, String.eqb_refl. simpl.
    destruct (Lexer.newline cfg e); eauto. }
  destruct arm as (st1 & -> & Htok & Harmed & Hquo).
  specialize (armed cfg st1 char Huse Harmed).
  destruct (Lexer.lex_char cfg st1 char) as [st2 out2].
  destruct armed as (-> & ? & ? & ?). simpl. repeat split; congruence.
Qed.

Lemma escaped_character_is_appended_verbatim_witness :
  (let st := Lexer.mkState "a" false true 2 0 2 in
   let '(st', out) := Lexer.lex_char escaping st ","%char in
   out = [] ∧
   Lexer.token st' = "a" +:+ str ","%char ∧
   Lexer.isEscaping st' = false ∧
   Lexer.isQuoting st' = false) ∧
  (let st := (Lexer.lex_chars escaping Lexer.init "a").1 in
   let '(st', out) :=
     Lexer.lex_chars escaping st (String backslash (str ","%char)) in
   out = [] ∧
   Lexer.token st' = "a" +:+ str ","%char ∧
   Lexer.isEscaping st' = false ∧
   Lexer.isQuoting st' = false).
Proof.
  split.
  - apply (proj1 escaped_character_is_appended_verbatim escaping
             (Lexer.mkState "a" false true 2 0 2) ","%char); reflexivity.
  - apply (proj1 (proj2 escaped_character_is_appended_verbatim) escaping
             (Lexer.lex_chars escaping Lexer.init "a").1 backslash ","%char);
      reflexivity.
Defined.

(** ** Quoting *)

(** C3.  [isQuoting] starts out false and no assignment ever makes it true,
    so the branch for quoted text is never taken.  With [useQuote], the
    quoted example gives one item whose text still begins with the opening
    quote, and a comma between quotes is yielded as a separator. *)
Theorem quoting_is_never_entered :
  (∀ cfg stream,
     Lexer.isQuoting (Lexer.lex_chunks cfg Lexer.init stream).1 = false) ∧
  Lexer.createSimpleLexer quoting [quoted_ab_c] =
    [LexedItem.mk [quoted_ab_c] 5 0 5] ∧
  Lexer.createSimpleLexer quoting [quoted_a_comma_b] =
    [LexedItem.mk [String dquote "a"] 2 0 2;
     LexedItem.mk [","] 3 0 3;
     LexedItem.mk ["b" +:+ str dquote] 5 0 5].
Proof.
  split; [|split; reflexivity].
  intros cfg stream.
  destruct (trace_erase cfg stream Lexer.init) as [<- _].
  destruct (trace_in_loop cfg stream Lexer.init) as [-> _].
  by apply lex_chars_isQuoting.
Qed.

(** * Properties of the parse engine *)

Section EngineFacts.

Context {TResult : Type}.
Variable rules : @rule_table TResult.

(** The loop ends with [NoRule] only for a symbol that has no rule, and with
    an undefined front only when the stack has run empty. *)
Lemma expand_NoRule fuel tokens position : ∀ stack result tos stack' result',
  expand rules fuel tokens position stack result = NoRule tos stack' result' →
  rules tos = None.
Proof.
  induction fuel as [|fuel IH]; intros stack result tos stack' result';
    destruct stack as [|[s|s|e] stack]; simpl; try done;
    destruct (rules s) as [r|] eqn:Hs; try done; try congruence.
  destruct (r tokens position result) as [fragment result1]. apply IH.
Qed.

Lemma expand_undefined fuel tokens position : ∀ stack result stack' result',
  expand rules fuel tokens position stack result = Settled None stack' result' →
  stack' = [].
Proof.
  induction fuel as [|fuel IH]; intros stack result stack' result';
    destruct stack as [|[s|s|e] stack]; simpl; try done; try congruence;
    destruct (rules s) as [r|] eqn:Hs; try done.
  destruct (r tokens position result) as [fragment result1]. apply IH.
Qed.

(** With [continue], no iteration touches the error list. *)
Lemma continue_parse_item debug fuel item stack errors result :
  match parse_item rules (mkOptions continue debug) fuel item stack errors
          result with
  | Goes_on _ errors' _ _ => errors' = errors
  | Ends (Returns r) => ParseResult.errors r = errors
  | Ends (Throws _ logged _ _) => logged = errors
  | Ends Diverges => True
  end.
Proof.
  unfold parse_item.
  destruct (expand rules fuel _ _ stack result) as [[[s|s|e]|] stack' r'| |];
    simpl; try done.
  by destruct (differs s _).
Qed.

Lemma continue_parse_items debug fuel lexed :
  ∀ stack errors lastIndex result,
  match parse_items rules (mkOptions continue debug) fuel lexed stack errors
          lastIndex result with
  | Returns r => ParseResult.errors r = errors
  | Throws _ logged _ _ => logged = errors
  | Diverges => True
  end.
Proof.
  induction lexed as [|item lexed IH]; intros stack errors lastIndex result;
    simpl; [done|].
  pose proof (continue_parse_item debug fuel item stack errors result) as H.
  destruct (parse_item _ _ fuel item stack errors result)
    as [stack' errors' lastIndex' result'|[r|m l s r|]]; try done.
  subst errors'. apply IH.
Qed.

(** More fuel does not change how a settled loop ended. *)
Lemma expand_more_fuel fuel : ∀ fuel' tokens position stack result,
  fuel ≤ fuel' →
  expand rules fuel tokens position stack result ≠ Unsettled →
  expand rules fuel' tokens position stack result =
  expand rules fuel tokens position stack result.
Proof.
  induction fuel as [|fuel IH]; intros fuel' tokens position stack result Hle;
    destruct stack as [|[s|s|e] stack]; simpl;
    try (by destruct fuel'); destruct (rules s) as [r|] eqn:Hs;
    try (by destruct fuel'; simpl; rewrite Hs).
  destruct fuel' as [|fuel']; [lia|]. simpl. rewrite Hs.
  destruct (r tokens position result) as [fragment result1].
  apply IH. lia.
Qed.

Lemma parse_item_more_fuel options fuel fuel' item stack errors result :
  fuel ≤ fuel' →
  parse_item rules options fuel item stack errors result ≠ Ends Diverges →
  parse_item rules options fuel' item stack errors result =
  parse_item rules options fuel item stack errors result.
Proof.
  intros Hle. unfold parse_item. intros H.
  rewrite (expand_more_fuel fuel fuel'); [done|done|].
  by destruct (expand rules fuel _ _ stack result).
Qed.

Lemma parse_items_more_fuel options fuel fuel' lexed :
  ∀ stack errors lastIndex result,
  fuel ≤ fuel' →
  parse_items rules options fuel lexed stack errors lastIndex result
  ≠ Diverges →
  parse_items rules options fuel' lexed stack errors lastIndex result =
  parse_items rules options fuel lexed stack errors lastIndex result.
Proof.
  induction lexed as [|item lexed IH];
    intros stack errors lastIndex result Hle H; simpl in *; [done|].
  rewrite (parse_item_more_fuel options fuel fuel'); [|done|].
  - destruct (parse_item rules options fuel item stack errors result);
      [by apply IH|done].
  - intros E. by rewrite E in H.
Qed.

(** A call of [parse] whose [initStack] hands out an array holding
    [contents] runs the loop from [contents]. *)
Lemma parse_rebuilt options initStack contents fuel lexed result heap :
  rebuilds initStack contents →
  (parse rules options initStack fuel lexed result heap).1 =
  parse_from rules options fuel contents lexed result.
Proof.
  intros H. unfold parse. specialize (H heap).
  destruct (initStack heap) as [l heap1]. simpl in *. by rewrite H.
Qed.

End EngineFacts.

Lemma last_index_cons (item : LexedItem.t) (lexed : list LexedItem.t)
    (lastIndex : nat) :
  last_index (item :: lexed) lastIndex =
  last_index lexed (LexedItem.index item).
Proof.
  unfold last_index. destruct lexed as [|item' lexed]; [done|].
  rewrite !fmap_cons. simpl.
  destruct (last (LexedItem.index item' :: _)) eqn:E; [done|].
  by apply last_None in E.
Qed.

Lemma fresh_array_rebuilds (contents : Stack) :
  rebuilds (fresh_array contents) contents.
Proof. intros heap. unfold fresh_array. simpl. apply lookup_insert_eq. Qed.

(** ** Recoverable errors and the error policy *)

(** C4, as amended.  For the grammar S -> a b, a fresh initial stack [S],
    the items [a] and [x] and the policy [stop], [parse] returns the single
    error of the mismatch and an empty stack: the entry [b] was shifted off
    before it was compared. *)
Theorem stop_returns_the_mismatch_and_an_empty_stack
    (TResult : Type) (result : TResult) (heap : gmap positive Stack)
    (fuel : nat) :
  (parse ab_rules (on stop) (fresh_array [ESymbol sym_S]) (S fuel)
     [item "a" 1; item "x" 2] result heap).1 =
  Returns
    (ParseResult.mk []
       [ParseError.mk "Expected 'b' but got 'x'." (Some "x") 2 0 2]
       result 2).
Proof.
  rewrite (parse_rebuilt _ _ _ [ESymbol sym_S]);
    [by destruct fuel|apply fresh_array_rebuilds].
Qed.

(** C4, as stated, fails: the stack that is returned is not [b]. *)
Lemma stop_does_not_leave_b_on_the_stack :
  ¬ ∃ r,
      (parse ab_rules (on stop) (fresh_array [ESymbol sym_S]) 1
         [item "a" 1; item "x" 2] tt ∅).1 = Returns r ∧
      ParseError.message <$> ParseResult.errors r =
        ["Expected 'b' but got 'x'."] ∧
      ParseResult.stack r = [EString "b"].
Proof.
  intros (r & Hr & _ & Hstack).
  rewrite (parse_rebuilt _ _ _ _ _ _ _ _ (fresh_array_rebuilds _)) in Hr.
  vm_compute in Hr. injection Hr as <-. discriminate Hstack.
Qed.

(** C1.  With [continue], the error list that [parse] returns (or prints
    before it rethrows) is the list it started the loop with: no branch
    pushes the error.  For the grammar S -> a b and the items [a], [x], [b]
    the returned list is empty. *)
Theorem continue_records_no_error :
  (∀ (TResult : Type) (rules : @rule_table TResult) debug fuel lexed stack
     errors lastIndex result,
     match parse_items rules (mkOptions continue debug) fuel lexed stack
             errors lastIndex result with
     | Returns r => ParseResult.errors r = errors
     | Throws _ logged _ _ => logged = errors
     | Diverges => True
     end) ∧
  (∀ (TResult : Type) (result : TResult) heap fuel,
     (parse ab_rules (on continue) (fresh_array [ESymbol sym_S]) (S fuel)
        [item "a" 1; item "x" 2; item "b" 3] result heap).1 =
     Returns (ParseResult.mk [] [] result 3)).
Proof.
  split.
  - intros. apply continue_parse_items.
  - intros. rewrite (parse_rebuilt _ _ _ [ESymbol sym_S]);
      [by destruct fuel|apply fresh_array_rebuilds].
Qed.

(** ** Symbols without a rule *)

(** C8.  When an iteration finds a symbol without a rule at the front of
    the stack, the call throws [No rule for ...] whatever the policy is,
    and the error list is the one the iteration started with; the same
    holds when the symbol comes to the front in the course of the
    expansion. *)
Theorem missing_rule_is_fatal_under_every_policy
    {TResult : Type} (rules : @rule_table TResult) (options : ParseOptions) :
  (∀ fuel item lexed tos stack errors lastIndex result,
     rules tos = None →
     parse_items rules options fuel (item :: lexed) (ESymbol tos :: stack)
       errors lastIndex result =
     Throws (no_rule tos) errors stack result) ∧
  (∀ fuel item lexed tos stack stack' errors lastIndex result result',
     expand rules fuel (LexedItem.tokens item) (position_of item) stack result
     = NoRule tos stack' result' →
     rules tos = None ∧
     parse_items rules options fuel (item :: lexed) stack errors lastIndex
       result =
     Throws (no_rule tos) errors stack' result').
Proof.
  split.
  - intros fuel item lexed tos stack errors lastIndex result Hnone.
    simpl. unfold parse_item.
    assert (expand rules fuel (LexedItem.tokens item) (position_of item)
              (ESymbol tos :: stack) result = NoRule tos stack result) as ->;
      [|done].
    destruct fuel; simpl; by rewrite Hnone.
  - intros fuel item lexed tos stack stack' errors lastIndex result result' H.
    split; [by eapply expand_NoRule|].
    simpl. unfold parse_item. by rewrite H.
Qed.

Lemma missing_rule_is_fatal_under_every_policy_witness :
  parse_items ab_rules (on continue) 0 [item "a" 1; item "b" 2]
    [ESymbol sym_T; EString "b"] [] 0 tt =
  Throws "No rule for Symbol(T)." [] [EString "b"] tt ∧
  (@dangling_rules unit sym_T = None ∧
   parse_items dangling_rules (on continue) 1 [item "a" 1; item "b" 2]
     [ESymbol sym_S; EString "c"] [] 0 tt =
   Throws "No rule for Symbol(T)." [] [EString "b"; EString "c"] tt).
Proof.
  split.
  - apply (proj1 (missing_rule_is_fatal_under_every_policy ab_rules
                    (on continue))).
    reflexivity.
  - apply (proj2 (missing_rule_is_fatal_under_every_policy dangling_rules
                    (on continue)) 1 (item "a" 1) [item "b" 2] sym_T
             [ESymbol sym_S; EString "c"] [EString "b"; EString "c"]).
    reflexivity.
Defined.

(** ** Items read on an empty stack *)

(** C9.  An item read while the stack is empty is compared with nothing:
    the iteration leaves the stack, the error list and the result as they
    are and only notes the index of the item, under every policy; so a run
    over an empty stack returns at the end of the input.  The same holds
    when the expansion leaves nothing to pop. *)
Theorem items_on_an_empty_stack_are_ignored
    {TResult : Type} (rules : @rule_table TResult) (options : ParseOptions)
    (fuel : nat) :
  (∀ item errors result,
     parse_item rules options fuel item [] errors result =
     Goes_on [] errors (LexedItem.index item) result) ∧
  (∀ lexed errors lastIndex result,
     parse_items rules options fuel lexed [] errors lastIndex result =
     Returns (ParseResult.mk [] errors result (last_index lexed lastIndex))) ∧
  (∀ item stack stack' errors result result',
     expand rules fuel (LexedItem.tokens item) (position_of item) stack result
     = Settled None stack' result' →
     parse_item rules options fuel item stack errors result =
     Goes_on [] errors (LexedItem.index item) result').
Proof.
  assert (one : ∀ item errors result,
     parse_item rules options fuel item [] errors result =
     Goes_on [] errors (LexedItem.index item) result).
  { intros. unfold parse_item. by destruct fuel. }
  split; [exact one|]. split.
  - intros lexed. induction lexed as [|item lexed IH];
      intros errors lastIndex result; simpl; [done|].
    by rewrite one, IH, last_index_cons.
  - intros item stack stack' errors result result' H.
    unfold parse_item. rewrite H.
    by rewrite (expand_undefined _ _ _ _ _ _ _ _ H).
Qed.

Lemma items_on_an_empty_stack_are_ignored_witness :
  parse_item vanishing_rules (on stop) 1 (item "a" 1) [ESymbol sym_E] [] tt =
  Goes_on [] [] 1 tt.
Proof.
  apply (proj2 (proj2 (items_on_an_empty_stack_are_ignored vanishing_rules
                         (on stop) 1)) (item "a" 1) [ESymbol sym_E] []).
  reflexivity.
Defined.

(** ** Calls on one engine *)

(** C5.  If every call of [initStack] hands out an array with the same
    contents, two calls of [parse] in a row on the same engine, with the
    same items, options and result value and with rules that are functions
    of their arguments, end in the same way: the same stack contents,
    errors, result and index, or the same failure.  Both end the way the
    loop run from those contents ends, whatever the heap holds. *)
Theorem parse_twice_ends_the_same
    {TResult : Type} (rules : @rule_table TResult) (options : ParseOptions)
    (initStack : initStack_t) (contents : Stack) (fuel : nat)
    (lexed : list LexedItem.t) (result : TResult)
    (heap : gmap positive Stack) :
  rebuilds initStack contents →
  let '(first, heap1) :=
    parse rules options initStack fuel lexed result heap in
  let '(second, _) :=
    parse rules options initStack fuel lexed result heap1 in
  first = second ∧ first = parse_from rules options fuel contents lexed result.
Proof.
  intros H.
  pose proof (parse_rebuilt rules options _ _ fuel lexed result heap H) as E1.
  destruct (parse rules options initStack fuel lexed result heap)
    as [first heap1].
  pose proof (parse_rebuilt rules options _ _ fuel lexed result heap1 H) as E2.
  destruct (parse rules options initStack fuel lexed result heap1)
    as [second heap2].
  simpl in *. split; congruence.
Qed.

Lemma parse_twice_ends_the_same_witness :
  let '(first, heap1) :=
    parse ab_rules (on stop) (fresh_array [ESymbol sym_S]) 1
      [item "a" 1; item "x" 2] tt ∅ in
  let '(second, _) :=
    parse ab_rules (on stop) (fresh_array [ESymbol sym_S]) 1
      [item "a" 1; item "x" 2] tt heap1 in
  first = second ∧
  first = parse_from ab_rules (on stop) 1 [ESymbol sym_S]
            [item "a" 1; item "x" 2] tt.
Proof.
  apply (parse_twice_ends_the_same ab_rules (on stop)
           (fresh_array [ESymbol sym_S]) [ESymbol sym_S] 1
           [item "a" 1; item "x" 2] tt ∅).
  apply fresh_array_rebuilds.
Defined.

(** The hypothesis on [initStack] is needed: an [initStack] that returns one
    shared array lets the second call see what the first call shifted off. *)
Example shared_array_is_remembered :
  let heap : gmap positive Stack := {[ 1%positive := [ESymbol sym_S] ]} in
  let '(first, heap1) :=
    parse ab_rules (on stop) (shared_array 1) 1 [item "a" 1; item "x" 2] tt
      heap in
  let '(second, _) :=
    parse ab_rules (on stop) (shared_array 1) 1 [item "a" 1; item "x" 2] tt
      heap1 in
  first =
    Returns
      (ParseResult.mk []
         [ParseError.mk "Expected 'b' but got 'x'." (Some "x") 2 0 2] tt 2) ∧
  second = Returns (ParseResult.mk [] [] tt 2).
Proof. vm_compute. by split. Qed.

(** * Further properties of the lexer *)

Lemma append_nil_r (s : string) : s +:+ EmptyString = s.
Proof.
  induction s as [|c s IH]; [done|].
  change (String c s +:+ EmptyString) with (String c (s +:+ EmptyString)).
  by rewrite IH.
Qed.

Lemma append_assoc (a b c : string) : (a +:+ b) +:+ c = a +:+ (b +:+ c).
Proof.
  induction a as [|x a IH]; [done|].
  change (String x (((a +:+ b)) +:+ c) = String x (a +:+ (b +:+ c))).
  by rewrite IH.
Qed.

Lemma append_length (a b : string) :
  String.length (a +:+ b) = String.length a + String.length b.
Proof.
  induction a as [|x a IH]; [done|].
  change (S (String.length (a +:+ b)) = S (String.length a + String.length b)).
  by rewrite IH.
Qed.

Lemma ascending_weaken (lo lo' : nat) (l : list nat) (hi : nat) :
  lo ≤ lo' → ascending lo' l hi → ascending lo l hi.
Proof.
  destruct l as [|i l]; simpl; [lia|]. intros ? [? ?]. split; [lia|done].
Qed.

Lemma ascending_app (l1 l2 : list nat) (mid hi : nat) : ∀ lo,
  ascending lo l1 mid → ascending mid l2 hi → ascending lo (l1 ++ l2) hi.
Proof.
  induction l1 as [|i l1 IH]; simpl; intros lo H1 H2.
  - by apply (ascending_weaken lo mid).
  - destruct H1 as [? H1]. split; [done|]. by apply IH.
Qed.

Section LexerMore.

Import Lexer.

Variable cfg : config.

(** The locals after a stream are those of the inner loop run over all
    its characters. *)
Lemma lex_chunks_state (stream : list string) (st : state) :
  (lex_chunks cfg st stream).1 = (lex_chars cfg st (characters stream)).1.
Proof.
  destruct (trace_erase cfg stream st) as [<- _].
  by destruct (trace_in_loop cfg stream st) as [-> _].
Qed.

Lemma lex_chars_index (s : string) : ∀ st,
  index (lex_chars cfg st s).1 = index st + String.length s.
Proof.
  induction s as [|char s IH]; intros st; simpl; [lia|].
  pose proof (lex_char_counters cfg st char) as [H _].
  destruct (lex_char cfg st char) as [st1 out1]. specialize (IH st1).
  destruct (lex_chars cfg st1 s) as [st2 out2]. simpl in *. lia.
Qed.

Lemma lex_chars_inlineIndex (s : string) : ∀ st,
  inlineIndex (lex_chars cfg st s).1 = column cfg (inlineIndex st) s.
Proof.
  induction s as [|char s IH]; intros st; simpl; [done|].
  pose proof (lex_char_counters cfg st char) as [_ H].
  destruct (lex_char cfg st char) as [st1 out1]. specialize (IH st1).
  destruct (lex_chars cfg st1 s) as [st2 out2]. simpl in *.
  rewrite IH. by destruct (newline cfg char); destruct H as [_ ->].
Qed.

(** *** Positions of the items *)

Lemma lex_char_ascending (st : state) (char : ascii) :
  ascending (index st) (LexedItem.index <$> (lex_char cfg st char).2)
    (index (lex_char cfg st char).1) ∧
  ascending (line st) (LexedItem.line <$> (lex_char cfg st char).2)
    (line (lex_char cfg st char).1).
Proof. unfold lex_char. lex_branches; simpl; lia. Qed.

Lemma lex_chars_ascending (s : string) : ∀ st,
  ascending (index st) (LexedItem.index <$> (lex_chars cfg st s).2)
    (index (lex_chars cfg st s).1) ∧
  ascending (line st) (LexedItem.line <$> (lex_chars cfg st s).2)
    (line (lex_chars cfg st s).1).
Proof.
  induction s as [|char s IH]; intros st; simpl; [lia|].
  pose proof (lex_char_ascending st char) as [H1 H2].
  destruct (lex_char cfg st char) as [st1 out1].
  destruct (IH st1) as [IH1 IH2].
  destruct (lex_chars cfg st1 s) as [st2 out2]. simpl in *.
  rewrite !fmap_app. split; by eapply ascending_app.
Qed.

Lemma chunk_end_ascending (st : state) :
  ascending (index st) (LexedItem.index <$> chunk_end st) (index st) ∧
  ascending (line st) (LexedItem.line <$> chunk_end st) (line st).
Proof. unfold chunk_end. by destruct (is_empty (token st)); simpl. Qed.

Lemma lex_chunks_ascending (stream : list string) : ∀ st,
  ascending (index st) (LexedItem.index <$> (lex_chunks cfg st stream).2)
    (index (lex_chunks cfg st stream).1) ∧
  ascending (line st) (LexedItem.line <$> (lex_chunks cfg st stream).2)
    (line (lex_chunks cfg st stream).1).
Proof.
  induction stream as [|chunk rest IH]; intros st; simpl; [lia|].
  unfold lex_chunk.
  pose proof (lex_chars_ascending chunk st) as [H1 H2].
  destruct (lex_chars cfg st chunk) as [st1 out1].
  pose proof (chunk_end_ascending st1) as [E1 E2].
  destruct (IH st1) as [IH1 IH2].
  destruct (lex_chunks cfg st1 rest) as [st2 out2]. simpl in *.
  rewrite !fmap_app.
  split; (eapply ascending_app; [eapply ascending_app|]); eauto.
Qed.

(** *** The shape of the items *)

Lemma is_empty_false (s : string) : is_empty s = false → s ≠ EmptyString.
Proof. by destruct s. Qed.

Lemma lex_char_one_token (st : state) (char : ascii) :
  Forall one_token (lex_char cfg st char).2.
Proof.
  unfold lex_char. lex_branches; simpl;
    repeat first [apply Forall_nil_2 | apply Forall_cons_2];
    (eexists; split; [reflexivity|]); try done.
  all: apply is_empty_false; by destruct (is_empty (token st)).
Qed.

Lemma lex_chars_one_token (s : string) : ∀ st,
  Forall one_token (lex_chars cfg st s).2.
Proof.
  induction s as [|char s IH]; intros st; simpl; [constructor|].
  pose proof (lex_char_one_token st char) as H.
  destruct (lex_char cfg st char) as [st1 out1]. specialize (IH st1).
  destruct (lex_chars cfg st1 s) as [st2 out2]. simpl in *.
  by apply Forall_app.
Qed.

Lemma chunk_end_one_token (st : state) : Forall one_token (chunk_end st).
Proof.
  unfold chunk_end. destruct (is_empty (token st)) eqn:E; simpl;
    [apply Forall_nil_2|].
  apply Forall_cons_2; [|apply Forall_nil_2].
  eexists; split; [reflexivity|by apply is_empty_false].
Qed.

Lemma lex_chunks_one_token (stream : list string) : ∀ st,
  Forall one_token (lex_chunks cfg st stream).2.
Proof.
  induction stream as [|chunk rest IH]; intros st; simpl; [constructor|].
  unfold lex_chunk.
  pose proof (lex_chars_one_token chunk st) as H.
  destruct (lex_chars cfg st chunk) as [st1 out1].
  pose proof (chunk_end_one_token st1) as E. specialize (IH st1).
  destruct (lex_chunks cfg st1 rest) as [st2 out2]. simpl in *.
  rewrite !Forall_app. auto.
Qed.

End LexerMore.

Lemma characters_app (l1 l2 : list string) :
  Lexer.characters (l1 ++ l2) = Lexer.characters l1 +:+ Lexer.characters l2.
Proof.
  induction l1 as [|x l1 IH]; [done|].
  change (x +:+ Lexer.characters (l1 ++ l2) =
          (x +:+ Lexer.characters l1) +:+ Lexer.characters l2).
  by rewrite IH, append_assoc.
Qed.

Lemma texts_app (a b : list LexedItem.t) :
  Lexer.texts (a ++ b) = Lexer.texts a ++ Lexer.texts b.
Proof. unfold Lexer.texts. by rewrite fmap_app, join_app. Qed.

Lemma all_chars_app (p : ascii → bool) (a b : string) :
  all_chars p (a +:+ b) = all_chars p a && all_chars p b.
Proof.
  induction a as [|x a IH]; [done|].
  change (p x && all_chars p (a +:+ b) = p x && all_chars p a && all_chars p b).
  by rewrite IH, andb_assoc.
Qed.

Lemma list_ascii_of_string_app (a b : string) :
  list_ascii_of_string (a +:+ b) =
  list_ascii_of_string a ++ list_ascii_of_string b.
Proof.
  induction a as [|x a IH]; [done|].
  change (x :: list_ascii_of_string (a +:+ b) =
          x :: (list_ascii_of_string a ++ list_ascii_of_string b)).
  by rewrite IH.
Qed.

Section LexerShapes.

Import Lexer.

Variable cfg : config.

(** *** Characters that are simply appended *)

Lemma lex_char_ordinary (st : state) (char : ascii) :
  special cfg char = false → isEscaping st = false → isQuoting st = false →
  lex_char cfg st char =
    (mkState (token st +:+ str char) false false (S (index st))
       (if newline cfg char then S (line st) else line st)
       (if newline cfg char then 0 else S (inlineIndex st)), []).
Proof.
  unfold special. intros [Hsep Hesc]%orb_false_iff Harm Hquo.
  unfold lex_char. rewrite Harm, Hquo, Hesc, Hsep, !andb_false_r.
  by destruct (newline cfg char).
Qed.

Lemma lex_chars_ordinary (s : string) : ∀ st,
  all_chars (λ c, negb (special cfg c)) s = true →
  isEscaping st = false → isQuoting st = false →
  lex_chars cfg st s =
    (mkState (token st +:+ s) false false (index st + String.length s)
       (line st + newlines cfg s) (column cfg (inlineIndex st) s), []).
Proof.
  induction s as [|char s IH]; intros st Hall Harm Hquo; simpl.
  - rewrite append_nil_r, !Nat.add_0_r. destruct st; simpl in *. congruence.
  - simpl in Hall. apply andb_true_iff in Hall as [Hc Hall].
    apply negb_true_iff in Hc.
    rewrite (lex_char_ordinary st char Hc Harm Hquo).
    rewrite IH by done. simpl.
    rewrite append_assoc. f_equal.
    f_equal; first [done | lia | destruct (newline cfg char); simpl; lia].
Qed.

(** *** The texts put together *)

Lemma lex_char_texts (st : state) (char : ascii) :
  useEscape cfg = false → isQuoting st = false →
  characters (texts (lex_char cfg st char).2) +:+ token (lex_char cfg st char).1
  = token st +:+ str char ∧
  isQuoting (lex_char cfg st char).1 = false.
Proof.
  intros Huse Hquo. unfold lex_char. rewrite Huse, Hquo, andb_false_r. simpl.
  destruct (separatorRegex cfg char);
    [destruct (token st) as [|x t] eqn:Htok|]; simpl;
    destruct (newline cfg char); simpl; split; try done;
    unfold texts, characters; simpl; by rewrite ?append_nil_r.
Qed.

Lemma lex_chars_texts (s : string) : ∀ st,
  useEscape cfg = false → isQuoting st = false →
  characters (texts (lex_chars cfg st s).2) +:+ token (lex_chars cfg st s).1
  = token st +:+ s ∧
  isQuoting (lex_chars cfg st s).1 = false.
Proof.
  induction s as [|char s IH]; intros st Huse Hquo; simpl.
  - by rewrite append_nil_r.
  - pose proof (lex_char_texts st char Huse Hquo) as [H1 H2].
    destruct (lex_char cfg st char) as [st1 out1]. simpl in *.
    destruct (IH st1 Huse H2) as [IH1 IH2].
    destruct (lex_chars cfg st1 s) as [st2 out2]. simpl in *.
    split; [|done].
    rewrite texts_app, characters_app, append_assoc, IH1, <-append_assoc, H1.
    by rewrite append_assoc.
Qed.

Lemma chunk_end_texts (st : state) :
  characters (texts (chunk_end st)) = token st.
Proof.
  unfold chunk_end. destruct (token st) as [|x t]; [done|].
  unfold texts, characters. simpl. by rewrite append_nil_r.
Qed.

(** *** Streams of separators *)

Lemma lex_char_separator (st : state) (char : ascii) :
  useEscape cfg = false → token st = EmptyString → isQuoting st = false →
  separatorRegex cfg char = true →
  token (lex_char cfg st char).1 = EmptyString ∧
  isQuoting (lex_char cfg st char).1 = false ∧
  (lex_char cfg st char).2 =
    [LexedItem.mk [str char] (S (index st)) (line st) (S (inlineIndex st))].
Proof.
  intros Huse Htok Hquo Hsep. unfold lex_char.
  rewrite Huse, Htok, Hquo, Hsep, andb_false_r. simpl.
  by destruct (newline cfg char).
Qed.

Lemma lex_chars_separators (s : string) : ∀ st,
  useEscape cfg = false → token st = EmptyString → isQuoting st = false →
  all_chars (separatorRegex cfg) s = true →
  token (lex_chars cfg st s).1 = EmptyString ∧
  isQuoting (lex_chars cfg st s).1 = false ∧
  texts (lex_chars cfg st s).2 = str <$> list_ascii_of_string s ∧
  LexedItem.index <$> (lex_chars cfg st s).2 =
    seq (S (index st)) (String.length s).
Proof.
  induction s as [|char s IH]; intros st Huse Htok Hquo Hall; simpl; [done|].
  simpl in Hall. apply andb_true_iff in Hall as [Hc Hall].
  pose proof (lex_char_counters cfg st char) as [Hidx _].
  destruct (lex_char_separator st char Huse Htok Hquo Hc) as (T & Q & O).
  destruct (lex_char cfg st char) as [st1 out1]. simpl in *.
  destruct (IH st1 Huse T Q Hall) as (T2 & Q2 & X2 & I2).
  destruct (lex_chars cfg st1 s) as [st2 out2]. simpl in *.
  subst out1. rewrite texts_app, X2, fmap_app, I2, Hidx.
  by rewrite fmap_cons.
Qed.

Lemma lex_chunks_separators (stream : list string) : ∀ st,
  useEscape cfg = false → token st = EmptyString → isQuoting st = false →
  all_chars (separatorRegex cfg) (characters stream) = true →
  texts (lex_chunks cfg st stream).2 =
    str <$> list_ascii_of_string (characters stream) ∧
  LexedItem.index <$> (lex_chunks cfg st stream).2 =
    seq (S (index st)) (String.length (characters stream)).
Proof.
  induction stream as [|chunk rest IH]; intros st Huse Htok Hquo Hall;
    [done|].
  change (characters (chunk :: rest)) with (chunk +:+ characters rest) in *.
  rewrite all_chars_app in Hall. apply andb_true_iff in Hall as [Hc Hall].
  simpl. unfold lex_chunk.
  pose proof (lex_chars_index cfg chunk st) as Hidx.
  destruct (lex_chars_separators chunk st Huse Htok Hquo Hc)
    as (T & Q & X & I).
  destruct (lex_chars cfg st chunk) as [st1 out1]. simpl in *.
  destruct (IH st1 Huse T Q Hall) as [X2 I2].
  destruct (lex_chunks cfg st1 rest) as [st2 out2]. simpl in *.
  unfold chunk_end. rewrite T. simpl. rewrite app_nil_r.
  rewrite texts_app, X, X2, fmap_app, I, I2, Hidx.
  rewrite list_ascii_of_string_app, fmap_app, append_length, seq_app.
  by split.
Qed.

End LexerShapes.

(** *** Configurations that lex alike *)

Section LexerAlike.

Import Lexer.

Variables cfg1 cfg2 : config.
Variable inv : state → Prop.

Hypothesis alike : ∀ st char,
  inv st →
  lex_char cfg1 st char = lex_char cfg2 st char ∧
  inv (lex_char cfg1 st char).1.

Lemma lex_chars_alike (s : string) : ∀ st,
  inv st →
  lex_chars cfg1 st s = lex_chars cfg2 st s ∧ inv (lex_chars cfg1 st s).1.
Proof.
  induction s as [|char s IH]; intros st Hst; simpl; [done|].
  destruct (alike st char Hst) as [<- Hst1].
  destruct (lex_char cfg1 st char) as [st1 out1]. simpl in *.
  destruct (IH st1 Hst1) as [<- Hst2].
  by destruct (lex_chars cfg1 st1 s).
Qed.

Lemma lex_chunks_alike (stream : list string) : ∀ st,
  inv st → lex_chunks cfg1 st stream = lex_chunks cfg2 st stream.
Proof.
  induction stream as [|chunk rest IH]; intros st Hst; simpl; [done|].
  unfold lex_chunk. destruct (lex_chars_alike chunk st Hst) as [<- Hst1].
  destruct (lex_chars cfg1 st chunk) as [st1 out1]. simpl in *.
  by rewrite (IH st1 Hst1).
Qed.

End LexerAlike.

(** X1.  The [index] of the items that the lexer yields never decreases
    from one item to the next and never exceeds the number of characters of
    the stream; their [line] never decreases and never exceeds the number
    of newline characters of the stream. *)
Theorem item_positions_never_decrease
    (cfg : Lexer.config) (stream : list string) :
  let out := Lexer.createSimpleLexer cfg stream in
  ascending 0 (LexedItem.index <$> out)
    (String.length (Lexer.characters stream)) ∧
  ascending 0 (LexedItem.line <$> out)
    (Lexer.newlines cfg (Lexer.characters stream)).
Proof.
  unfold Lexer.createSimpleLexer.
  pose proof (lex_chunks_ascending cfg stream Lexer.init) as H.
  rewrite lex_chunks_state, lex_chars_index in H.
  rewrite lex_chars_line in H. exact H.
Qed.

(** X2.  Every item that the lexer yields has exactly one token, and that
    token is not the empty string, for every configuration and stream. *)
Theorem every_item_has_one_nonempty_token
    (cfg : Lexer.config) (stream : list string) :
  Forall one_token (Lexer.createSimpleLexer cfg stream).
Proof. apply lex_chunks_one_token. Qed.

(** X3.  A non-empty chunk without separators and, when [useEscape] is on,
    without the escape character is yielded as a single item at the end of
    the chunk: its text is the chunk, its [index] the length of the chunk,
    its [line] the number of newline characters in it and its [inlineIndex]
    the number of characters after the last of them. *)
Theorem chunk_without_special_characters_is_one_item
    (cfg : Lexer.config) (chunk : string) :
  chunk ≠ EmptyString →
  all_chars (λ c, negb (special cfg c)) chunk = true →
  Lexer.createSimpleLexer cfg [chunk] =
    [LexedItem.mk [chunk] (String.length chunk) (Lexer.newlines cfg chunk)
       (column cfg 0 chunk)].
Proof.
  intros Hne Hall. unfold Lexer.createSimpleLexer. simpl.
  unfold Lexer.lex_chunk.
  rewrite (lex_chars_ordinary cfg chunk Lexer.init Hall eq_refl eq_refl).
  unfold Lexer.chunk_end. simpl.
  change (EmptyString +:+ chunk) with chunk. by destruct chunk.
Qed.

Lemma chunk_without_special_characters_is_one_item_witness :
  Lexer.createSimpleLexer escaping ["abc"] =
    [LexedItem.mk ["abc"] 3 0 3].
Proof.
  apply (chunk_without_special_characters_is_one_item escaping "abc");
    [discriminate|reflexivity].
Defined.

(** X4.  Without [useEscape], lexing one chunk loses and adds no character:
    the texts of the items, put together in order, are the chunk. *)
Theorem texts_of_one_chunk_spell_the_chunk
    (cfg : Lexer.config) (chunk : string) :
  Lexer.useEscape cfg = false →
  Lexer.characters (Lexer.texts (Lexer.createSimpleLexer cfg [chunk])) = chunk.
Proof.
  intros Huse. unfold Lexer.createSimpleLexer. simpl. unfold Lexer.lex_chunk.
  destruct (lex_chars_texts cfg chunk Lexer.init Huse eq_refl) as [H _].
  destruct (Lexer.lex_chars cfg Lexer.init chunk) as [st out]. simpl in *.
  rewrite app_nil_r, texts_app, characters_app, chunk_end_texts.
  exact H.
Qed.

Lemma texts_of_one_chunk_spell_the_chunk_witness :
  Lexer.characters (Lexer.texts (Lexer.createSimpleLexer plain ["ab,cd e"]))
  = "ab,cd e".
Proof.
  apply (texts_of_one_chunk_spell_the_chunk plain "ab,cd e"). reflexivity.
Defined.

(** X5.  Without [useEscape], a stream in which every character is a
    separator gives one item per character, whatever the chunks are: the
    texts are the characters in order and the [index] values count from 1
    to the number of characters. *)
Theorem separators_are_yielded_one_by_one
    (cfg : Lexer.config) (stream : list string) :
  Lexer.useEscape cfg = false →
  all_chars (Lexer.separatorRegex cfg) (Lexer.characters stream) = true →
  Lexer.texts (Lexer.createSimpleLexer cfg stream) =
    str <$> list_ascii_of_string (Lexer.characters stream) ∧
  LexedItem.index <$> Lexer.createSimpleLexer cfg stream =
    seq 1 (String.length (Lexer.characters stream)).
Proof.
  intros Huse Hall.
  by apply (lex_chunks_separators cfg stream Lexer.init).
Qed.

Lemma separators_are_yielded_one_by_one_witness :
  Lexer.texts (Lexer.createSimpleLexer plain [", "; ","]) =
    str <$> list_ascii_of_string (Lexer.characters [", "; ","]) ∧
  LexedItem.index <$> Lexer.createSimpleLexer plain [", "; ","] =
    seq 1 (String.length (Lexer.characters [", "; ","])).
Proof.
  apply (separators_are_yielded_one_by_one plain [", "; ","]); reflexivity.
Defined.

(** X6.  An [escapeChar] that is not exactly one character long never
    equals a character of the stream, so the escape is never armed: the
    lexer yields what it yields with [useEscape] off. *)
Theorem long_escapeChar_never_arms
    (cfg : Lexer.config) (stream : list string) :
  String.length (Lexer.escape cfg) ≠ 1 →
  Lexer.createSimpleLexer cfg stream =
  Lexer.createSimpleLexer (with_useEscape false cfg) stream.
Proof.
  intros Hlen. unfold Lexer.createSimpleLexer. f_equal.
  apply (lex_chunks_alike _ _ (λ st, Lexer.isEscaping st = false));
    [|done].
  intros st char Harm.
  assert (String.eqb (str char) (Lexer.escape cfg) = false) as Hne.
  { apply String.eqb_neq. intros E. by rewrite <-E in Hlen. }
  destruct cfg as [sep nl q e ec]. unfold Lexer.lex_char, Lexer.newline in *.
  unfold Lexer.escape in *. simpl in *. rewrite Harm, Hne, !andb_false_r.
  lex_branches; by simpl.
Qed.

Lemma long_escapeChar_never_arms_witness :
  Lexer.createSimpleLexer two_character_escape [a_escaped_comma_b] =
  Lexer.createSimpleLexer (with_useEscape false two_character_escape)
    [a_escaped_comma_b].
Proof.
  apply (long_escapeChar_never_arms two_character_escape
           [a_escaped_comma_b]).
  vm_compute. lia.
Defined.

(** X7.  The value of [useQuote] does not change what the lexer yields. *)
Theorem useQuote_changes_nothing
    (b : bool) (cfg : Lexer.config) (stream : list string) :
  Lexer.createSimpleLexer (with_useQuote b cfg) stream =
  Lexer.createSimpleLexer cfg stream.
Proof.
  unfold Lexer.createSimpleLexer. f_equal.
  apply (lex_chunks_alike _ _ (λ st, Lexer.isQuoting st = false));
    [|done].
  intros st char Hquo.
  destruct cfg as [sep nl q e ec]. unfold Lexer.lex_char, Lexer.newline.
  unfold Lexer.escape. simpl. rewrite Hquo, !andb_false_r.
  lex_branches; by simpl.
Qed.

(** * Further properties of the parse engine *)

Section EngineMore.

Context {TResult : Type}.
Variable rules : @rule_table TResult.

(** An entry that is not a symbol ends the loop at once. *)
Lemma expand_terminal fuel tokens position tos stack (result : TResult) :
  expand rules fuel tokens position (EString tos :: stack) result =
  Settled (Some (EString tos)) stack result.
Proof. by destruct fuel. Qed.

Lemma expand_error fuel tokens position error stack (result : TResult) :
  expand rules fuel tokens position (EParseError error :: stack) result =
  Settled (Some (EParseError error)) stack result.
Proof. by destruct fuel. Qed.

Lemma differs_same (text : string) : differs text (Some text) = false.
Proof. simpl. by rewrite String.eqb_refl. Qed.

Lemma parse_items_empty options fuel lexed :
  ∀ errors lastIndex (result : TResult),
  parse_items rules options fuel lexed [] errors lastIndex result =
  Returns (ParseResult.mk [] errors result (last_index lexed lastIndex)).
Proof.
  induction lexed as [|x lexed IH]; intros errors lastIndex result;
    simpl; [done|].
  unfold parse_item.
  assert (expand rules fuel (LexedItem.tokens x) (position_of x) [] result
          = Settled None [] result) as -> by (by destruct fuel).
  by rewrite IH, last_index_cons.
Qed.

(** Terminals that the items match are popped one per item. *)
Lemma parse_items_matching options fuel lexed texts :
  Forall2 reads lexed texts →
  ∀ rest errors lastIndex (result : TResult),
  parse_items rules options fuel lexed ((EString <$> texts) ++ rest) errors
    lastIndex result =
  Returns (ParseResult.mk rest errors result (last_index lexed lastIndex)).
Proof.
  induction 1 as [|x text lexed texts Hx _ IH];
    intros rest errors lastIndex result; [done|].
  rewrite fmap_cons. simpl. unfold parse_item.
  rewrite expand_terminal. unfold reads in Hx. rewrite Hx, differs_same.
  by rewrite IH, last_index_cons.
Qed.

(** The error list grows by at most one entry, and only under [stop]. *)
Lemma parse_items_errors options fuel lexed :
  ∀ stack errors lastIndex (result : TResult),
  match parse_items rules options fuel lexed stack errors lastIndex result
  with
  | Returns r =>
      ParseResult.errors r = errors ∨
      (onError options = stop ∧ ∃ e, ParseResult.errors r = errors ++ [e])
  | Throws _ logged _ _ => logged = errors
  | Diverges => True
  end.
Proof.
  induction lexed as [|x lexed IH]; intros stack errors lastIndex result;
    simpl; [by left|].
  unfold parse_item.
  destruct (expand rules fuel _ _ stack result)
    as [[[s|s|e]|] stack' result'| |]; simpl; try done; try apply IH.
  - destruct (differs s _); [|apply IH].
    unfold on_error. destruct (onError options) eqn:E; simpl;
      [right; eauto|done|apply IH].
  - unfold on_error. destruct (onError options) eqn:E; simpl;
      [right; eauto|done|apply IH].
Qed.

(** What the rules preserve, the engine preserves. *)
Lemma expand_invariant (P : TResult → Prop) :
  (∀ s r tokens position result,
     rules s = Some r → P result → P (r tokens position result).2) →
  ∀ fuel tokens position stack result,
  P result →
  match expand rules fuel tokens position stack result with
  | Settled _ _ result' => P result'
  | NoRule _ _ result' => P result'
  | Unsettled => True
  end.
Proof.
  intros Hrules. induction fuel as [|fuel IH];
    intros tokens position stack result HP;
    destruct stack as [|[s|s|e] stack]; simpl; try done;
    destruct (rules s) as [r|] eqn:Hs; try done.
  specialize (Hrules s r tokens position result Hs HP).
  destruct (r tokens position result) as [fragment result1]. by apply IH.
Qed.

Lemma parse_items_invariant (P : TResult → Prop) options fuel lexed :
  (∀ s r tokens position result,
     rules s = Some r → P result → P (r tokens position result).2) →
  ∀ stack errors lastIndex result,
  P result →
  match parse_items rules options fuel lexed stack errors lastIndex result
  with
  | Returns r => P (ParseResult.result r)
  | Throws _ _ _ result' => P result'
  | Diverges => True
  end.
Proof.
  intros Hrules.
  induction lexed as [|x lexed IH]; intros stack errors lastIndex result HP;
    simpl; [done|].
  unfold parse_item.
  pose proof (expand_invariant P Hrules fuel (LexedItem.tokens x)
                (position_of x) stack result HP) as H.
  destruct (expand rules fuel _ _ stack result)
    as [[[s|s|e]|] stack' result'| |]; simpl; try done; try by apply IH.
  - destruct (differs s _); [|by apply IH].
    unfold on_error. destruct (onError options); simpl; try done.
    by apply IH.
  - unfold on_error. destruct (onError options); simpl; try done.
    by apply IH.
Qed.

(** A rule that puts its own symbol first never lets the loop settle. *)
Lemma expand_left_recursive (s : symbol) :
  left_recursive rules s →
  ∀ fuel tokens position stack result,
  expand rules fuel tokens position (ESymbol s :: stack) result = Unsettled.
Proof.
  intros (r & Hr & Hhead).
  induction fuel as [|fuel IH]; intros tokens position stack result; simpl;
    rewrite Hr; [done|].
  specialize (Hhead tokens position result).
  destruct (r tokens position result) as [[|e fragment] result1];
    simpl in Hhead; [done|].
  injection Hhead as ->. apply IH.
Qed.

End EngineMore.

(** X8.  When the stack begins with terminals and each item reads as the
    corresponding terminal, the loop pops exactly these terminals and
    returns the rest of the stack with the error list untouched, under
    every policy. *)
Theorem matching_terminals_are_consumed
    {TResult : Type} (rules : @rule_table TResult) (options : ParseOptions)
    (fuel : nat) (lexed : list LexedItem.t) (texts : list string)
    (rest : Stack) (errors : list ParseError.t) (lastIndex : nat)
    (result : TResult) :
  Forall2 reads lexed texts →
  parse_items rules options fuel lexed ((EString <$> texts) ++ rest) errors
    lastIndex result =
  Returns (ParseResult.mk rest errors result (last_index lexed lastIndex)).
Proof. intros H. by apply parse_items_matching. Qed.

Lemma matching_terminals_are_consumed_witness :
  parse_items (@ab_rules unit) (on throw) 0 [item "a" 1; item "b" 2]
    ((EString <$> ["a"; "b"]) ++ [EString "c"]) [] 0 tt =
  Returns (ParseResult.mk [EString "c"] [] tt
             (last_index [item "a" 1; item "b" 2] 0)).
Proof.
  apply (matching_terminals_are_consumed ab_rules (on throw) 0
           [item "a" 1; item "b" 2] ["a"; "b"]).
  repeat constructor.
Defined.

(** One turn of the loop on a symbol that has a rule. *)
Lemma expand_apply {TResult : Type} (rules : @rule_table TResult)
    (fuel : nat) (tokens : list string) (position : Position.t) (s : symbol)
    (r : rule) (stack : Stack) (result : TResult) :
  rules s = Some r →
  expand rules (S fuel) tokens position (ESymbol s :: stack) result =
  expand rules fuel tokens position
    ((r tokens position result).1 ++ stack) (r tokens position result).2.
Proof. intros Hs. simpl. rewrite Hs. by destruct (r tokens position result). Qed.

(** X9.  A rule that expands its symbol into the terminals that the items
    read lets [parse] consume all of them: the symbol and the terminals are
    gone from the stack, no error is recorded, and the result is the one
    the rule left, under every policy. *)
Theorem rule_expanding_to_the_input_is_consumed
    {TResult : Type} (rules : @rule_table TResult) (options : ParseOptions)
    (fuel : nat) (s : symbol) (r : rule) (x : LexedItem.t)
    (lexed : list LexedItem.t) (texts : list string) (rest : Stack)
    (result result' : TResult) :
  rules s = Some r →
  r (LexedItem.tokens x) (position_of x) result = (EString <$> texts, result') →
  Forall2 reads (x :: lexed) texts →
  parse_from rules options (S fuel) (ESymbol s :: rest) (x :: lexed) result =
  Returns (ParseResult.mk rest [] result' (last_index (x :: lexed) 0)).
Proof.
  intros Hs Hr Hreads. unfold parse_from.
  rewrite <-(parse_items_matching rules options (S fuel) _ _ Hreads rest [] 0
               result').
  inversion Hreads as [|? text ? texts' Hx Hrest]; subst.
  rewrite fmap_cons in *. cbn [parse_items]. unfold parse_item.
  rewrite (expand_apply rules fuel _ _ s r rest result Hs), Hr.
  cbn [fst snd app]. by rewrite !expand_terminal.
Qed.

Lemma rule_expanding_to_the_input_is_consumed_witness :
  parse_from (@ab_rules unit) (on stop) 1 [ESymbol sym_S; EString "c"]
    [item "a" 1; item "b" 2] tt =
  Returns (ParseResult.mk [EString "c"] [] tt
             (last_index [item "a" 1; item "b" 2] 0)).
Proof.
  apply (rule_expanding_to_the_input_is_consumed ab_rules (on stop) 0 sym_S
           (λ _ _ result, ([EString "a"; EString "b"], result))
           (item "a" 1) [item "b" 2] ["a"; "b"]);
    [reflexivity|reflexivity|repeat constructor].
Defined.

(** X10.  [parse] returns at most one error, and only under [stop]; the
    list it prints before rethrowing a failure is always empty. *)
Theorem parse_returns_at_most_one_error
    {TResult : Type} (rules : @rule_table TResult) (options : ParseOptions)
    (fuel : nat) (stack : Stack) (lexed : list LexedItem.t)
    (result : TResult) :
  match parse_from rules options fuel stack lexed result with
  | Returns r =>
      ParseResult.errors r = [] ∨
      (onError options = stop ∧ ∃ e, ParseResult.errors r = [e])
  | Throws _ logged _ _ => logged = []
  | Diverges => True
  end.
Proof. apply parse_items_errors. Qed.

(** X11.  The engine changes the result only through the rules: a property
    of the result that every rule preserves holds of the result when
    [parse] returns or throws. *)
Theorem result_changes_only_through_rules
    {TResult : Type} (rules : @rule_table TResult) (P : TResult → Prop)
    (options : ParseOptions) (fuel : nat) (stack : Stack)
    (lexed : list LexedItem.t) (result : TResult) :
  (∀ s r tokens position result,
     rules s = Some r → P result → P (r tokens position result).2) →
  P result →
  match parse_from rules options fuel stack lexed result with
  | Returns r => P (ParseResult.result r)
  | Throws _ _ _ result' => P result'
  | Diverges => True
  end.
Proof. intros Hrules HP. by apply parse_items_invariant. Qed.

Lemma result_changes_only_through_rules_witness :
  match parse_from counting_rules (on continue) 1
          [ESymbol sym_S; ESymbol sym_S] [item "a" 1; item "a" 2] 0 with
  | Returns r => Nat.even (ParseResult.result r) = true
  | Throws _ _ _ result' => Nat.even result' = true
  | Diverges => True
  end.
Proof.
  apply (result_changes_only_through_rules counting_rules
           (λ n, Nat.even n = true) (on continue) 1
           [ESymbol sym_S; ESymbol sym_S] [item "a" 1; item "a" 2] 0);
    [|reflexivity].
  intros s r tokens position result Hs HP. unfold counting_rules in Hs.
  destruct (Nat.eqb (sym_id s) (sym_id sym_S)); [|discriminate].
  injection Hs as <-. exact HP.
Defined.

(** X12.  Under [continue], on a stack without symbols every item discards
    exactly one entry, a terminal or an embedded error, whether or not the
    item matches it, and nothing is recorded: the stack that is returned is
    the initial one without its first entries, one per item. *)
Theorem continue_discards_one_entry_per_item
    {TResult : Type} (rules : @rule_table TResult) (debug : bool)
    (fuel : nat) (lexed : list LexedItem.t) (stack : Stack)
    (errors : list ParseError.t) (lastIndex : nat) (result : TResult) :
  symbol_free stack = true →
  parse_items rules (mkOptions continue debug) fuel lexed stack errors
    lastIndex result =
  Returns (ParseResult.mk (drop (length lexed) stack) errors result
             (last_index lexed lastIndex)).
Proof.
  revert stack lastIndex.
  induction lexed as [|x lexed IH]; intros stack lastIndex Hfree; [done|].
  destruct stack as [|[s|s|e] stack]; simpl in Hfree; [|done| |].
  - by rewrite parse_items_empty, drop_nil.
  - simpl. unfold parse_item. rewrite expand_terminal.
    destruct (differs s _); unfold on_error; simpl;
      by rewrite IH, last_index_cons.
  - simpl. unfold parse_item. rewrite expand_error. unfold on_error. simpl.
    by rewrite IH, last_index_cons.
Qed.

Lemma continue_discards_one_entry_per_item_witness :
  parse_items (@ab_rules unit) (mkOptions continue false) 0
    [item "x" 1; item "y" 2]
    [EString "a"; EParseError (got_undefined "b" (item "b" 0)); EString "c"]
    [] 0 tt =
  Returns (ParseResult.mk
             (drop (length [item "x" 1; item "y" 2])
                [EString "a"; EParseError (got_undefined "b" (item "b" 0));
                 EString "c"])
             [] tt (last_index [item "x" 1; item "y" 2] 0)).
Proof.
  apply (continue_discards_one_entry_per_item ab_rules false 0
           [item "x" 1; item "y" 2]).
  reflexivity.
Defined.

(** X13.  When the rule of the symbol at the front of the stack always puts
    that same symbol first, the [while] loop never settles: whatever the
    bound on the number of rule applications, [parse] does not return and
    does not throw. *)
Theorem left_recursive_rule_never_settles
    {TResult : Type} (rules : @rule_table TResult) (options : ParseOptions)
    (s : symbol) (fuel : nat) (x : LexedItem.t) (lexed : list LexedItem.t)
    (stack : Stack) (errors : list ParseError.t) (lastIndex : nat)
    (result : TResult) :
  left_recursive rules s →
  parse_items rules options fuel (x :: lexed) (ESymbol s :: stack) errors
    lastIndex result = Diverges.
Proof.
  intros H. simpl. unfold parse_item.
  by rewrite (expand_left_recursive rules s H).
Qed.

Lemma left_recursive_rule_never_settles_witness :
  parse_items (@looping_rules unit) (on stop) 1000 [item "a" 1]
    [ESymbol sym_S] [] 0 tt = Diverges.
Proof.
  apply (left_recursive_rule_never_settles looping_rules (on stop) sym_S).
  eexists. split; [reflexivity|]. intros. reflexivity.
Defined.

(** X14.  An item without tokens matches no terminal: with a terminal at
    the front of the stack, the error says that [undefined] was read and
    has no token; it is returned under [stop], thrown under [throw] and
    dropped under [continue]. *)
Theorem item_without_tokens_matches_no_terminal
    {TResult : Type} (rules : @rule_table TResult) (options : ParseOptions)
    (fuel : nat) (x : LexedItem.t) (lexed : list LexedItem.t) (tos : string)
    (stack : Stack) (errors : list ParseError.t) (lastIndex : nat)
    (result : TResult) :
  LexedItem.tokens x = [] →
  parse_items rules options fuel (x :: lexed) (EString tos :: stack) errors
    lastIndex result =
  match onError options with
  | stop =>
      Returns (ParseResult.mk stack (errors ++ [got_undefined tos x]) result
                 (LexedItem.index x))
  | throw =>
      Throws (ParseError.message (got_undefined tos x)) errors stack result
  | continue =>
      parse_items rules options fuel lexed stack errors (LexedItem.index x)
        result
  end.
Proof.
  intros H. simpl. unfold parse_item. rewrite expand_terminal, H. simpl.
  unfold on_error, mismatch, got_undefined. rewrite H. simpl.
  by destruct (onError options).
Qed.

Lemma item_without_tokens_matches_no_terminal_witness :
  parse_items (@ab_rules unit) (on throw) 0 [LexedItem.mk [] 7 1 3]
    [EString "undefined"] [] 0 tt =
  Throws "Expected 'undefined' but got 'undefined'." [] [] tt.
Proof.
  apply (item_without_tokens_matches_no_terminal ab_rules (on throw) 0
           (LexedItem.mk [] 7 1 3) [] "undefined").
  reflexivity.
Defined.

(** X15.  The three policies differ only from the first recoverable error
    on.  If the run under [stop] returns without a new error, the runs
    under [throw] and [continue] return the same; if it returns with a new
    error, the run under [throw] throws the message of that error with the
    same stack and result; if it throws or does not settle, so do the
    other two. *)
Theorem policies_agree_until_the_first_error
    {TResult : Type} (rules : @rule_table TResult) (debug : bool)
    (fuel : nat) (lexed : list LexedItem.t) :
  ∀ (stack : Stack) (errors : list ParseError.t) (lastIndex : nat)
    (result : TResult),
  match parse_items rules (mkOptions stop debug) fuel lexed stack errors
          lastIndex result with
  | Returns r =>
      (ParseResult.errors r = errors ∧
       parse_items rules (mkOptions throw debug) fuel lexed stack errors
         lastIndex result = Returns r ∧
       parse_items rules (mkOptions continue debug) fuel lexed stack errors
         lastIndex result = Returns r) ∨
      (∃ e, ParseResult.errors r = errors ++ [e] ∧
            parse_items rules (mkOptions throw debug) fuel lexed stack errors
              lastIndex result =
            Throws (ParseError.message e) errors (ParseResult.stack r)
              (ParseResult.result r))
  | o =>
      parse_items rules (mkOptions throw debug) fuel lexed stack errors
        lastIndex result = o ∧
      parse_items rules (mkOptions continue debug) fuel lexed stack errors
        lastIndex result = o
  end.
Proof.
  induction lexed as [|x lexed IH]; intros stack errors lastIndex result;
    simpl; [by left|].
  unfold parse_item.
  destruct (expand rules fuel _ _ stack result)
    as [[[s|s|e]|] stack' result'| |]; simpl; try done; try apply IH.
  - destruct (differs s _); [|apply IH].
    unfold on_error. simpl. right. by eexists.
  - unfold on_error. simpl. right. by eexists.
Qed.
